(** * chibisafe: the album retrieval route (GET /album/:uuid)

    A shallow embedding of
    [packages/backend/src/routes/album/GetAlbum.ts]: the sort-order parser
    [parseSortOrder] and the handler [run], together with the part of the
    ORM and of the relational store that the handler talks to.

    Conventions.
    - A JavaScript string is modelled by the [string] of its UTF-8 bytes.
      The only separator the code looks for is [":"], an ASCII byte that
      never occurs inside a multi-byte sequence, and the only comparisons
      are against ASCII literals, so splitting and [includes] agree with
      their UTF-16 originals.
    - A JavaScript object used as a dictionary is a [gmap string _].
    - The numbers [page], [limit], [skip], [take] and [count] are integers
      ([Z]); the query schema that coerces them is not part of this file.
      The source computes [skip] in IEEE doubles: [round_double] is what a
      double operation makes of an exact integer result, and the integer
      arithmetic of [options] is the source's wherever no rounding happens
      ([exact_options]), as on the safe integers.  What the handler does
      with a fractional [page] or [limit] is outside this model.
    - The order in which the store returns rows whose sort keys are equal
      is the store's own choice; [sort_files] keeps them in stored order.
      No statement below depends on which of several tied rows a window
      contains. *)

From Stdlib Require Import ZArith Ascii String List Lia.
From stdpp Require Import base option list strings gmap fin_maps.

Open Scope string_scope.
Open Scope Z_scope.

(** ** JavaScript values of type [string | null | undefined] *)

Inductive JsString : Type :=
| undefined
| null
| str (s : string).

#[global] Instance JsString_eq_dec : EqDecision JsString.
Proof. solve_decision. Defined.

(** [!!v] : a string is truthy unless it is empty; [null] and [undefined]
    are falsy. *)
Definition truthy (v : JsString) : bool :=
  match v with
  | str (String _ _) => true
  | _ => false
  end.

(** [a || b] evaluates to [a] when [a] is truthy and to [b] otherwise. *)
Definition js_or (a b : JsString) : JsString :=
  if truthy a then a else b.

Infix "|||" := js_or (at level 50, left associativity).

(** ** [String.prototype.split] with a one-character separator

    ["a:b".split(':')] is [["a"; "b"]], ["".split(':')] is [[""]] and
    ["a:".split(':')] is [["a"; ""]]: the result has one more element than
    the string has separators. *)

Fixpoint split (sep : ascii) (s : string) : list string :=
  match s with
  | EmptyString => [EmptyString]
  | String c s' =>
      if Ascii.eqb c sep then EmptyString :: split sep s'
      else match split sep s' with
           | w :: ws => String c w :: ws
           | [] => [String c EmptyString]
           end
  end.

(** [Array.prototype.includes] on an array of strings. *)
Definition includes (l : list string) (x : string) : bool :=
  existsb (String.eqb x) l.

(** The inverse of [split]: [parts.join(sep)]. *)
Fixpoint join (sep : ascii) (parts : list string) : string :=
  match parts with
  | [] => EmptyString
  | [w] => w
  | w :: ws => w +:+ String sep (join sep ws)
  end.

(** ** parseSortOrder *)

Definition defaultOrder : gmap string string := {[ "id" := "desc" ]}.

Definition validFields : list string := ["createdAt"; "name"; "size"].
Definition validDirections : list string := ["asc"; "desc"].

(** [const [field, direction] = sortOrder.split(':')] binds the first two
    elements of the array; an element that is not there is [undefined]. *)
Definition parseSortOrder (sortOrder : JsString) : gmap string string :=
  if negb (truthy sortOrder) then defaultOrder
  else
    match sortOrder with
    | str s =>
        let parts := split ":" s in
        let field := from_option str undefined (parts !! 0%nat) in
        let direction := from_option str undefined (parts !! 1%nat) in
        if negb (truthy field) || negb (truthy direction) then defaultOrder
        else
          match field, direction with
          | str field, str direction =>
              if negb (includes validFields field)
                 || negb (includes validDirections direction)
              then defaultOrder
              else {[ field := direction ]}
          | _, _ => defaultOrder
          end
    | _ => defaultOrder
    end.

(** The input starts with [field ":" direction], and either ends there or
    goes on with another [":"]. *)
Definition leading_pair (s field direction : string) : Prop :=
  s = field +:+ ":" +:+ direction
  ∨ ∃ rest, s = field +:+ ":" +:+ direction +:+ ":" +:+ rest.

(** ** The relational store

    Only the columns the route reads are modelled.  An album row carries
    the files related to it, in the order the store holds them. *)

Record FileRow : Type := {
  file_id : Z;
  file_createdAt : Z;
  file_hash : string;
  file_ip : string;
  file_name : string;
  file_original : string;
  file_size : Z;
  file_type : string;
  file_uuid : string;
  file_isS3 : bool;
  file_isWatched : bool
}.

Record AlbumRow : Type := {
  album_uuid : string;
  album_userId : Z;
  album_name : string;
  album_description : JsString;
  album_nsfw : bool;
  album_sortOrder : JsString;
  album_files : list FileRow
}.

Definition Database : Type := list AlbumRow.

(** ** The ORM: arguments and results of [prisma.albums.findFirst] *)

Record Where : Type := { where_uuid : string; where_userId : Z }.

(** The pagination object [{ take, skip }]. *)
Record Options : Type := { take : Z; skip : Z }.

(** The arguments of the nested [files] selection:
    [{ select: {...}, orderBy, ...options }]. *)
Record FilesArgs : Type := {
  files_orderBy : gmap string string;
  files_options : Options
}.

(** The two [select] shapes the handler uses. *)
Inductive Select : Type :=
| SelectSortOrder
| SelectAlbum (files : FilesArgs).

Record AlbumMeta : Type := { meta_sortOrder : JsString }.

(** A file as selected by the second query: every column but [id]. *)
Record FileSelected : Type := {
  sel_createdAt : Z;
  sel_hash : string;
  sel_ip : string;
  sel_name : string;
  sel_original : string;
  sel_size : Z;
  sel_type : string;
  sel_uuid : string;
  sel_isS3 : bool;
  sel_isWatched : bool
}.

Record AlbumSelected : Type := {
  got_name : string;
  got_description : JsString;
  got_nsfw : bool;
  got_sortOrder : JsString;
  got_files : list FileSelected;
  got_count_files : Z
}.

Definition ResultOf (sel : Select) : Type :=
  match sel with
  | SelectSortOrder => AlbumMeta
  | SelectAlbum _ => AlbumSelected
  end.

(** A settled promise: the ORM either throws or answers. *)
Inductive Settled (A : Type) : Type :=
| rejected
| fulfilled (a : A).
Arguments rejected {A}.
Arguments fulfilled {A} a.

(** *** What the store answers *)

Definition owned_by (w : Where) (row : AlbumRow) : bool :=
  String.eqb (album_uuid row) (where_uuid w)
  && (album_userId row =? where_userId w).

(** [findFirst({ where: { uuid, userId } })]: the first matching row. *)
Definition lookup_album (db : Database) (w : Where) : option AlbumRow :=
  List.find (owned_by w) db.

(** The column comparisons behind [orderBy]; names are compared bytewise. *)
Definition column_leb (field : string) : option (FileRow → FileRow → bool) :=
  if String.eqb field "id" then Some (λ a b, file_id a <=? file_id b)
  else if String.eqb field "createdAt"
       then Some (λ a b, file_createdAt a <=? file_createdAt b)
  else if String.eqb field "name"
       then Some (λ a b, String.leb (file_name a) (file_name b))
  else if String.eqb field "size" then Some (λ a b, file_size a <=? file_size b)
  else None.

Definition directed (direction : string) (leb : FileRow → FileRow → bool)
  : option (FileRow → FileRow → bool) :=
  if String.eqb direction "asc" then Some leb
  else if String.eqb direction "desc" then Some (λ a b, leb b a)
  else None.

Fixpoint insert_sorted (leb : FileRow → FileRow → bool) (x : FileRow)
    (l : list FileRow) : list FileRow :=
  match l with
  | [] => [x]
  | y :: l' => if leb x y then x :: l else y :: insert_sorted leb x l'
  end.

Definition sort_files (leb : FileRow → FileRow → bool) (l : list FileRow)
  : list FileRow :=
  foldr (insert_sorted leb) [] l.

(** [orderBy] with a one-key object [{ column: direction }]. *)
Definition order_of (orderBy : gmap string string)
  : option (FileRow → FileRow → bool) :=
  match map_to_list orderBy with
  | [(field, direction)] => column_leb field ≫= directed direction
  | _ => None
  end.

(** [take] and [skip] travel to the query engine as signed 64-bit
    integers. *)
Definition int64_min : Z := - 2 ^ 63.
Definition int64_max : Z := 2 ^ 63 - 1.

Definition fits_int64 (z : Z) : bool := (int64_min <=? z) && (z <=? int64_max).

Definition in_int64 (z : Z) : Prop := int64_min ≤ z ≤ int64_max.

(** The query is validated before it reaches the store: an unknown column
    or direction, a negative [skip], and a [take] or [skip] that does not
    fit 64 bits are refused. *)
Definition validate (args : FilesArgs) : option (FileRow → FileRow → bool) :=
  if skip (files_options args) <? 0 then None
  else if negb (fits_int64 (take (files_options args)))
          || negb (fits_int64 (skip (files_options args)))
       then None
  else order_of (files_orderBy args).

(** [skip] and [take] on the ordered list; a negative [take] counts from
    the end.  Which of several rows with equal sort keys falls inside the
    window is the store's choice; here their stored order decides. *)
Definition paginate {A : Type} (o : Options) (l : list A) : list A :=
  if 0 <=? take o
  then firstn (Z.to_nat (take o)) (skipn (Z.to_nat (skip o)) l)
  else rev (firstn (Z.to_nat (- take o)) (skipn (Z.to_nat (skip o)) (rev l))).

Definition select_file (f : FileRow) : FileSelected :=
  {| sel_createdAt := file_createdAt f;
     sel_hash := file_hash f;
     sel_ip := file_ip f;
     sel_name := file_name f;
     sel_original := file_original f;
     sel_size := file_size f;
     sel_type := file_type f;
     sel_uuid := file_uuid f;
     sel_isS3 := file_isS3 f;
     sel_isWatched := file_isWatched f |}.

Definition select_files (leb : FileRow → FileRow → bool) (o : Options)
    (l : list FileRow) : list FileSelected :=
  map select_file (paginate o (sort_files leb l)).

(** [_count: true] counts every related file, whatever the window. *)
Definition select_album (leb : FileRow → FileRow → bool) (o : Options)
    (row : AlbumRow) : AlbumSelected :=
  {| got_name := album_name row;
     got_description := album_description row;
     got_nsfw := album_nsfw row;
     got_sortOrder := album_sortOrder row;
     got_files := select_files leb o (album_files row);
     got_count_files := Z.of_nat (length (album_files row)) |}.

Definition findFirst (db : Database) (w : Where) (sel : Select)
  : Settled (option (ResultOf sel)) :=
  match sel return Settled (option (ResultOf sel)) with
  | SelectSortOrder =>
      fulfilled
        ((λ row, {| meta_sortOrder := album_sortOrder row |})
           <$> lookup_album db w)
  | SelectAlbum args =>
      match validate args with
      | None => rejected
      | Some leb =>
          fulfilled (select_album leb (files_options args) <$> lookup_album db w)
      end
  end.

(** ** Handlers as programs over the ORM

    An [async] function that awaits ORM queries is a tree: it either
    returns, or issues a [findFirst] and continues with the answer. *)

Inductive Prisma (A : Type) : Type :=
| Ret (a : A)
| FindFirst (w : Where) (sel : Select) (k : option (ResultOf sel) → Prisma A).
Arguments Ret {A} a.
Arguments FindFirst {A} w sel k.

Fixpoint prisma_bind {A B : Type} (f : A → Prisma B) (m : Prisma A) : Prisma B :=
  match m with
  | Ret a => f a
  | FindFirst w sel k => FindFirst w sel (λ r, prisma_bind f (k r))
  end.

#[global] Instance prisma_ret : MRet Prisma := λ A a, Ret a.
#[global] Instance prisma_mbind : MBind Prisma := λ A B f m, prisma_bind f m.

(** [await prisma.albums.findFirst({ where, select })] *)
Definition prisma_albums_findFirst (w : Where) (sel : Select)
  : Prisma (option (ResultOf sel)) :=
  FindFirst w sel Ret.

(** Other requests write to the store while a handler is suspended, so each
    [await] may see another state: [world n] is the store as the [n]-th
    query of the run finds it. *)
Fixpoint exec {A : Type} (world : nat → Database) (n : nat) (p : Prisma A)
  : Settled A :=
  match p with
  | Ret a => fulfilled a
  | FindFirst w sel k =>
      match findFirst (world n) w sel with
      | rejected => rejected
      | fulfilled r => exec world (S n) (k r)
      end
  end.

(** The queries a run issues, in order. *)
Fixpoint queries {A : Type} (world : nat → Database) (n : nat) (p : Prisma A)
  : list (Where * Select) :=
  match p with
  | Ret _ => []
  | FindFirst w sel k =>
      (w, sel) ::
      match findFirst (world n) w sel with
      | rejected => []
      | fulfilled r => queries world (S n) (k r)
      end
  end.

(** ** The route *)

Inductive JsValue : Type :=
| JsBool (b : bool)
| JsNumber (n : Z)
| JsDate (t : Z)
| JsText (s : string).

Record Request : Type := {
  params_uuid : string;
  query_page : option Z;
  query_limit : option Z;
  user_id : Z;
  headers : gmap string string
}.

(** The 200 response of [schema]. *)
Record Envelope : Type := {
  message : string;
  name : string;
  description : JsString;
  isNsfw : bool;
  sortOrder : JsString;
  count : Z;
  files : list (gmap string JsValue)
}.

Inductive Response : Type :=
| notFound (msg : string)
| send (body : Envelope).

(** The selected file as a JavaScript object. *)
Definition file_object (f : FileSelected) : gmap string JsValue :=
  {[ "createdAt" := JsDate (sel_createdAt f);
     "hash" := JsText (sel_hash f);
     "ip" := JsText (sel_ip f);
     "name" := JsText (sel_name f);
     "original" := JsText (sel_original f);
     "size" := JsNumber (sel_size f);
     "type" := JsText (sel_type f);
     "uuid" := JsText (sel_uuid f);
     "isS3" := JsBool (sel_isS3 f);
     "isWatched" := JsBool (sel_isWatched f) ]}.

(** [{ ...a, ...b }]: the keys of [b] win. *)
Definition spread {V : Type} (a b : gmap string V) : gmap string V := b ∪ a.

(** *** JavaScript numbers on the integers

    A double has 53 significant bits.  An arithmetic operation on doubles
    returns the exact result rounded to the nearest double, ties going to
    the even significand; results beyond the range of doubles are not
    modelled. *)
Definition round_double (z : Z) : Z :=
  let a := Z.abs z in
  if a <? 2 ^ 53 then z
  else
    let k := Z.log2 a - 52 in
    let q := Z.shiftr a k in
    let r := Z.land a (Z.ones k) in
    let half := 2 ^ (k - 1) in
    let q' := if r <? half then q
              else if half <? r then q + 1
              else if Z.even q then q else q + 1 in
    Z.sgn z * Z.shiftl q' k.

Definition number_sub (a b : Z) : Z := round_double (a - b).
Definition number_mul (a b : Z) : Z := round_double (a * b).

(** [Number.isSafeInteger]. *)
Definition safe_integer (z : Z) : Prop := Z.abs z ≤ 2 ^ 53 - 1.

(** The integer is a double: it has at most 53 significant bits and lies
    within the range of doubles. *)
Definition is_double (z : Z) : Prop := round_double z = z ∧ Z.abs z < 2 ^ 1024.

(** [const { page = 1, limit = 50 } = req.query]: a default applies when
    the property is [undefined]. *)
Definition options (req : Request) : Options :=
  let page := default 1 (query_page req) in
  let limit := default 50 (query_limit req) in
  {| take := limit; skip := (page - 1) * limit |}.

(** [page] and [limit] are doubles and nothing is rounded in
    [(page - 1) * limit]: the integers of [options] are the numbers the
    source computes. *)
Definition exact_options (req : Request) : Prop :=
  let page := default 1 (query_page req) in
  let limit := default 50 (query_limit req) in
  is_double page ∧ is_double limit
  ∧ is_double (page - 1) ∧ is_double ((page - 1) * limit).

(** The files query of this request passes the validation of [take] and
    [skip], computed as the source computes them. *)
Definition window_accepted (req : Request) : Prop :=
  exact_options req
  ∧ 0 ≤ skip (options req)
  ∧ in_int64 (take (options req))
  ∧ skip (options req) ≤ int64_max.

(** The same request asking for [page] with [limit] files a page. *)
Definition with_page (req : Request) (page limit : Z) : Request :=
  {| params_uuid := params_uuid req;
     query_page := Some page;
     query_limit := Some limit;
     user_id := user_id req;
     headers := headers req |}.

(** The filter [{ uuid, userId: req.user.id }] of both queries. *)
Definition owner (req : Request) : Where :=
  {| where_uuid := params_uuid req; where_userId := user_id req |}.

Definition album_not_found : string := "The album could not be found".

(** No row of the store has both the requested uuid and the requester's
    user id. *)
Definition unowned (db : Database) (req : Request) : Prop :=
  ∀ row, row ∈ db →
         ¬ (album_uuid row = params_uuid req ∧ album_userId row = user_id req).

(** A setting is present when it is a non-empty string. *)
Definition present (v : JsString) : Prop := ∃ s, v = str s ∧ s ≠ "".

Section Route.

(** [SETTINGS.defaultSortOrder] and [constructFilePublicLink] live in
    modules outside this file ([structures/settings], [utils/File]). *)
Variable SETTINGS_defaultSortOrder : JsString.
Variable constructFilePublicLink :
  Request → string → bool → bool → gmap string JsValue.

Definition effectiveSortOrder (albumMeta : AlbumMeta) : JsString :=
  meta_sortOrder albumMeta ||| SETTINGS_defaultSortOrder ||| str "createdAt:desc".

Definition orderBy (albumMeta : AlbumMeta) : gmap string string :=
  parseSortOrder (effectiveSortOrder albumMeta).

(** The body of the [for (const file of album.files)] loop. *)
Definition push_file (req : Request) (files : list (gmap string JsValue))
    (file : FileSelected) : list (gmap string JsValue) :=
  files ++
  [spread (file_object file)
          (constructFilePublicLink req (sel_name file) (sel_isS3 file)
                                   (sel_isWatched file))].

Definition run (req : Request) : Prisma Response :=
  albumMeta ← prisma_albums_findFirst (owner req) SelectSortOrder;
  match albumMeta with
  | None => mret (notFound album_not_found)
  | Some albumMeta =>
      let args := {| files_orderBy := orderBy albumMeta;
                     files_options := options req |} in
      album ← prisma_albums_findFirst (owner req) (SelectAlbum args);
      match album with
      | None => mret (notFound album_not_found)
      | Some album =>
          let files := foldl (push_file req) [] (got_files album) in
          mret (send {| message := "Successfully retrieved album";
                        name := got_name album;
                        description := got_description album;
                        files := files;
                        isNsfw := got_nsfw album;
                        sortOrder := got_sortOrder album;
                        count := got_count_files album |})
      end
  end.

(** The outcome of one run of the handler. *)
Definition handle (world : nat → Database) (req : Request) : Settled Response :=
  exec world 0 (run req).

End Route.

(** ** A small store to run the route on *)

Module Sample.

Definition file (i : Z) (n : string) (sz : Z) (s3 watched : bool) : FileRow :=
  {| file_id := i; file_createdAt := 1000 - i; file_hash := "h";
     file_ip := "10.0.0.1"; file_name := n; file_original := n;
     file_size := sz; file_type := "image/png"; file_uuid := n;
     file_isS3 := s3; file_isWatched := watched |}.

Definition holiday : AlbumRow :=
  {| album_uuid := "a1"; album_userId := 7; album_name := "Holiday";
     album_description := null; album_nsfw := false; album_sortOrder := null;
     album_files := [file 1 "b.png" 30 false false;
                     file 2 "a.png" 10 true false;
                     file 3 "c.png" 20 false true] |}.

Definition db : Database := [holiday].

Definition world : nat → Database := λ _, db.

(** A stand-in for [constructFilePublicLink]. *)
Definition link (req : Request) (fileName : string) (isS3 isWatched : bool)
  : gmap string JsValue :=
  {[ "url" := JsText ((if isS3 then "s3/"
                       else if isWatched then "watched/" else "local/")
                      +:+ fileName) ]}.

Definition request (user : Z) (page limit : option Z) : Request :=
  {| params_uuid := "a1"; query_page := page; query_limit := limit;
     user_id := user; headers := ∅ |}.

Definition watched_file : gmap string JsValue :=
  spread (file_object (select_file (file 3 "c.png" 20 false true)))
         {[ "url" := JsText "watched/c.png" ]}.

(** The second page of two: ordered by [createdAt] descending, the files
    come as [b.png], [a.png], [c.png]. *)
Definition second_page : Envelope :=
  {| message := "Successfully retrieved album";
     name := "Holiday";
     description := null;
     isNsfw := false;
     sortOrder := null;
     count := 3;
     files := [watched_file] |}.

(** Requests for that album: by its owner, and by somebody else. *)
Definition by_owner (page limit : option Z) : Request := request 7 page limit.
Definition by_stranger : Request := request 8 None None.

End Sample.

(** A run during which the album is deleted: the first query still finds
    it, the second does not. *)
Module Vanishing.

Definition world : nat → Database :=
  λ n, match n with O => Sample.db | S _ => [] end.

End Vanishing.

(** The owner's request without [page] and [limit]: all three files, newest
    first. *)
Module WholeAlbum.

Definition listed (i : Z) (n : string) (sz : Z) (s3 watched : bool)
    (url : string) : gmap string JsValue :=
  spread (file_object (select_file (Sample.file i n sz s3 watched)))
         {[ "url" := JsText url ]}.

Definition first_page : Envelope :=
  {| message := "Successfully retrieved album";
     name := "Holiday";
     description := null;
     isNsfw := false;
     sortOrder := null;
     count := 3;
     files := [listed 1 "b.png" 30 false false "local/b.png";
               listed 2 "a.png" 10 true false "s3/a.png";
               listed 3 "c.png" 20 false true "watched/c.png"] |}.

End WholeAlbum.

(** * Properties *)

(** ** Strings *)

Lemma split_not_nil sep s : split sep s ≠ [].
Proof.
  destruct s as [|c s]; simpl; [done|].
  destruct (Ascii.eqb c sep); [done|].
  by destruct (split sep s).
Qed.

Lemma join_split sep s : join sep (split sep s) = s.
Proof.
  induction s as [|c s IH]; [done|].
  simpl. destruct (Ascii.eqb c sep) eqn:E.
  - apply Ascii.eqb_eq in E as ->.
    pose proof (split_not_nil sep s) as Hne.
    destruct (split sep s) as [|w ws]; [done|].
    change (String sep (join sep (w :: ws)) = String sep s). by rewrite IH.
  - destruct (split sep s) as [|w [|w' ws]]; simpl in *; by rewrite <- IH.
Qed.

Lemma includes_elem_of l x : includes l x = true ↔ x ∈ l.
Proof.
  unfold includes. rewrite existsb_exists, list_elem_of_In. split.
  - by intros (y & Hy & ->%String.eqb_eq).
  - intros Hx. exists x. by rewrite String.eqb_refl.
Qed.

Lemma includes_false l x : includes l x = false ↔ x ∉ l.
Proof.
  rewrite <- includes_elem_of. by destruct (includes l x).
Qed.

Lemma split_leading_pair s f d rest :
  split ":" s = f :: d :: rest → leading_pair s f d.
Proof.
  intros E. rewrite <- (join_split ":" s), E.
  destruct rest as [|r rest]; [by left|right].
  exists (join ":" (r :: rest)).
  change (f +:+ String ":" (d +:+ String ":" (join ":" (r :: rest)))
          = f +:+ ":" +:+ d +:+ ":" +:+ join ":" (r :: rest)).
  done.
Qed.

Lemma leading_pair_split s f d :
  f ∈ validFields → d ∈ validDirections → leading_pair s f d →
  ∃ rest, split ":" s = f :: d :: rest.
Proof.
  intros Hf Hd Hs. unfold validFields, validDirections in *.
  repeat (apply elem_of_cons in Hf as [->|Hf]).
  4: by apply elem_of_nil in Hf.
  all: repeat (apply elem_of_cons in Hd as [->|Hd]).
  all: try by apply elem_of_nil in Hd.
  all: destruct Hs as [->|[rest ->]]; [by exists []|].
  all: exists (split ":" rest); simpl.
  all: reflexivity.
Qed.

(** ** parseSortOrder *)

(** What the parser does, read off the first two segments of the input. *)
Lemma parseSortOrder_segments s :
  parseSortOrder (str s) =
  match split ":" s with
  | f :: d :: _ =>
      if includes validFields f && includes validDirections d
      then {[ f := d ]} else defaultOrder
  | _ => defaultOrder
  end.
Proof.
  unfold parseSortOrder.
  destruct s as [|c s]; [done|].
  change (negb (truthy (str (String c s)))) with false. cbv iota.
  destruct (split ":" (String c s)) as [|f [|d rest]]; [done| |].
  - by destruct f.
  - cbn [lookup list_lookup from_option].
    destruct f as [|cf f]; [done|].
    destruct d as [|cd d].
    { cbn. by rewrite andb_false_r. }
    cbn [truthy negb orb].
    by destruct (includes validFields _), (includes validDirections _).
Qed.

Lemma parseSortOrder_falsy v : truthy v = false → parseSortOrder v = defaultOrder.
Proof. unfold parseSortOrder. by intros ->. Qed.

Lemma parseSortOrder_cases v :
  parseSortOrder v = defaultOrder
  ∨ ∃ s f d rest, v = str s ∧ split ":" s = f :: d :: rest
      ∧ f ∈ validFields ∧ d ∈ validDirections
      ∧ parseSortOrder v = {[ f := d ]}.
Proof.
  destruct v as [| |s]; [by left..|].
  rewrite parseSortOrder_segments.
  destruct (split ":" s) as [|f [|d rest]] eqn:E; [by left..|].
  destruct (includes validFields f) eqn:Hf; [|by left].
  destruct (includes validDirections d) eqn:Hd; [|by left].
  right. exists s, f, d, rest.
  by rewrite includes_elem_of in Hf, Hd.
Qed.

(** C2, as the specification words it, does not hold: an input with a third
    segment is not of the shape [field:direction], yet it is not sent to
    the default ordering. *)
Lemma parseSortOrder_strict_shape_refuted :
  ¬ (∀ s : string,
       (∀ f d, f ∈ validFields → d ∈ validDirections → s ≠ f +:+ ":" +:+ d) →
       parseSortOrder (str s) = defaultOrder).
Proof.
  intros H. specialize (H "name:asc:x").
  assert (parseSortOrder (str "name:asc:x") = {[ "name" := "asc" ]}) as E
    by reflexivity.
  rewrite E in H. clear E.
  assert (({[ "name" := "asc" ]} : gmap string string) !! "name"
          = defaultOrder !! "name") as Hl.
  { f_equal. apply H. intros f d Hf Hd.
    unfold validFields, validDirections in *.
    repeat (apply elem_of_cons in Hf as [->|Hf]).
    4: by apply elem_of_nil in Hf.
    all: repeat (apply elem_of_cons in Hd as [->|Hd]).
    all: try by apply elem_of_nil in Hd.
    all: discriminate. }
  vm_compute in Hl. discriminate.
Qed.

(** C2 (amended): when the first two [":"]-separated segments of the input
    are an allowed field and an allowed direction, whatever follows them,
    the parser returns the ordering by that field in that direction; on
    every other input, [null], [undefined] and the empty string included,
    it returns the default ordering [id desc]. *)
Theorem parseSortOrder_leading_pair (v : JsString) :
  (∀ s f d, v = str s → f ∈ validFields → d ∈ validDirections →
            leading_pair s f d → parseSortOrder v = {[ f := d ]})
  ∧ ((∀ s f d, v = str s → f ∈ validFields → d ∈ validDirections →
               ¬ leading_pair s f d) →
     parseSortOrder v = defaultOrder).
Proof.
  split.
  - intros s f d -> Hf Hd Hs.
    destruct (leading_pair_split s f d Hf Hd Hs) as [rest E].
    rewrite parseSortOrder_segments, E.
    apply includes_elem_of in Hf, Hd. by rewrite Hf, Hd.
  - intros Hno.
    destruct (parseSortOrder_cases v)
      as [E|(s & f & d & rest & -> & E & Hf & Hd & _)]; [done|].
    destruct (Hno s f d eq_refl Hf Hd). by eapply split_leading_pair.
Qed.

Lemma parseSortOrder_leading_pair_witness :
  parseSortOrder (str "size:desc:zzz") = {[ "size" := "desc" ]}
  ∧ parseSortOrder (str "size;desc") = defaultOrder.
Proof.
  split.
  - apply (proj1 (parseSortOrder_leading_pair (str "size:desc:zzz"))
             "size:desc:zzz" "size" "desc" eq_refl).
    + unfold validFields. apply list_elem_of_further, list_elem_of_further,
        list_elem_of_here.
    + unfold validDirections. apply list_elem_of_further, list_elem_of_here.
    + right. by exists "zzz".
  - apply (proj2 (parseSortOrder_leading_pair (str "size;desc"))).
    intros s f d [= <-] Hf Hd [E|[rest E]].
    all: unfold validFields, validDirections in *.
    all: repeat (apply elem_of_cons in Hf as [->|Hf]).
    all: try by apply elem_of_nil in Hf.
    all: repeat (apply elem_of_cons in Hd as [->|Hd]).
    all: try by apply elem_of_nil in Hd.
    all: discriminate.
Defined.

(** C9: the parser is a total function of its input; on every input,
    [null], [undefined], the empty string, strings without a colon and
    strings with several colons included, it returns an object with exactly
    one key, drawn from [id], [createdAt], [name] and [size], whose value is
    [asc] or [desc]. *)
Theorem parseSortOrder_total (v : JsString) :
  ∃ key direction,
    parseSortOrder v = {[ key := direction ]}
    ∧ size (parseSortOrder v) = 1%nat
    ∧ key ∈ ["id"; "createdAt"; "name"; "size"]
    ∧ direction ∈ ["asc"; "desc"].
Proof.
  destruct (parseSortOrder_cases v)
    as [E|(s & f & d & rest & -> & _ & Hf & Hd & E)].
  - exists "id", "desc". rewrite E. unfold defaultOrder.
    rewrite map_size_singleton. repeat split; [|].
    + apply list_elem_of_here.
    + apply list_elem_of_further, list_elem_of_here.
  - exists f, d. rewrite E, map_size_singleton. repeat split; [|done].
    by apply list_elem_of_further.
Qed.

(** ** Numbers *)

Lemma round_double_exact z : Z.abs z ≤ 2 ^ 53 → round_double z = z.
Proof.
  intros Hz. unfold round_double.
  destruct (Z.ltb_spec (Z.abs z) (2 ^ 53)) as [_|Hge]; [done|].
  assert (Z.abs z = 2 ^ 53) as Ha by lia.
  rewrite Ha. change (Z.log2 (2 ^ 53) - 52) with 1.
  change (Z.shiftr (2 ^ 53) 1) with (2 ^ 52).
  change (Z.land (2 ^ 53) (Z.ones 1)) with 0.
  change (2 ^ (1 - 1)) with 1. cbn [Z.ltb Z.compare].
  change (Z.shiftl (2 ^ 52) 1) with (2 ^ 53). rewrite <- Ha.
  rewrite Z.mul_comm. apply Z.abs_sgn.
Qed.

Lemma safe_integer_is_double z : safe_integer z → is_double z.
Proof.
  unfold safe_integer, is_double. intros Hz. split.
  - apply round_double_exact. lia.
  - assert (2 ^ 53 < 2 ^ 1024) by done. lia.
Qed.

Lemma safe_exact_options req :
  safe_integer (default 1 (query_page req)) →
  safe_integer (default 50 (query_limit req)) →
  safe_integer ((default 1 (query_page req) - 1) * default 50 (query_limit req)) →
  exact_options req.
Proof.
  intros Hp Hl Hm. unfold exact_options. cbv zeta.
  repeat split; try (by apply safe_integer_is_double).
  - apply round_double_exact. unfold safe_integer in Hp. lia.
  - unfold safe_integer in Hp. assert (2 ^ 53 < 2 ^ 1024) by done. lia.
Qed.

Lemma exact_options_skip req :
  exact_options req →
  number_mul (number_sub (default 1 (query_page req)) 1)
             (default 50 (query_limit req))
  = skip (options req).
Proof.
  intros (_ & _ & [Hs _] & [Hm _]).
  unfold number_mul, number_sub, options. cbn [skip]. by rewrite Hs, Hm.
Qed.

(** Above 2^53 the source's product is rounded: page 2^53 with limit 3
    gives a [skip] ending in 972 where the integer product ends in 973, so
    that request is not among the exact ones; page 2 with limit 2^63 is. *)
Example number_mul_rounds :
  number_mul (number_sub (2 ^ 53) 1) 3 = 27021597764222972
  ∧ (2 ^ 53 - 1) * 3 = 27021597764222973.
Proof. split; reflexivity. Qed.

Example rounded_options_not_exact :
  ¬ exact_options (Sample.by_owner (Some (2 ^ 53)) (Some 3)).
Proof. intros (_ & _ & _ & [H _]). vm_compute in H. discriminate H. Qed.

Example exact_options_two_to_63 :
  exact_options (Sample.by_owner (Some 2) (Some (2 ^ 63))).
Proof. vm_compute. repeat split. Qed.

(** ** The store and the ORM *)

Lemma lookup_album_None db w :
  lookup_album db w = None ↔
  ∀ row, row ∈ db →
         ¬ (album_uuid row = where_uuid w ∧ album_userId row = where_userId w).
Proof.
  unfold lookup_album. split.
  - intros Hnone row Hin [Hu Hi].
    apply list_elem_of_In in Hin.
    pose proof (find_none _ _ Hnone row Hin) as Hf.
    unfold owned_by in Hf. rewrite Hu, Hi, String.eqb_refl, Z.eqb_refl in Hf.
    discriminate.
  - intros Hall. destruct (find (owned_by w) db) as [row|] eqn:E; [|done].
    apply find_some in E as [Hin Hown]. apply list_elem_of_In in Hin.
    unfold owned_by in Hown. apply andb_true_iff in Hown as [Hu Hi].
    apply String.eqb_eq in Hu. apply Z.eqb_eq in Hi.
    by destruct (Hall row Hin).
Qed.

Lemma lookup_album_unowned db req :
  lookup_album db (owner req) = None ↔ unowned db req.
Proof. exact (lookup_album_None db (owner req)). Qed.

Lemma lookup_album_Some db w row :
  lookup_album db w = Some row →
  row ∈ db ∧ album_uuid row = where_uuid w ∧ album_userId row = where_userId w.
Proof.
  unfold lookup_album. intros [Hin Hown]%find_some.
  apply list_elem_of_In in Hin.
  unfold owned_by in Hown. apply andb_true_iff in Hown as [Hu Hi].
  apply String.eqb_eq in Hu. by apply Z.eqb_eq in Hi.
Qed.

Lemma insert_sorted_perm leb x l : insert_sorted leb x l ≡ₚ x :: l.
Proof.
  induction l as [|y l IH]; [done|].
  simpl. destruct (leb x y); [done|].
  rewrite IH. apply Permutation_swap.
Qed.

Lemma sort_files_perm leb l : sort_files leb l ≡ₚ l.
Proof.
  unfold sort_files. induction l as [|x l IH]; [done|].
  simpl. by rewrite insert_sorted_perm, IH.
Qed.

Lemma paginate_past_end {A} (o : Options) (l : list A) :
  Z.of_nat (length l) ≤ skip o → paginate o l = [].
Proof.
  intros Hle. unfold paginate.
  assert (length l ≤ Z.to_nat (skip o))%nat as Hn by lia.
  destruct (0 <=? take o).
  - by rewrite (skipn_all2 l Hn), firstn_nil.
  - rewrite <- length_rev in Hn.
    by rewrite (skipn_all2 (rev l) Hn), firstn_nil.
Qed.

Lemma window_elem_of {A} (n m : nat) (l : list A) x :
  x ∈ firstn n (skipn m l) → x ∈ l.
Proof.
  intros Hx. eapply elem_of_sublist; [exact Hx|].
  etrans; [apply sublist_take|apply sublist_drop].
Qed.

Lemma paginate_elem_of {A} (o : Options) (l : list A) x :
  x ∈ paginate o l → x ∈ l.
Proof.
  unfold paginate. destruct (0 <=? take o); intros Hx.
  - by eapply window_elem_of.
  - apply list_elem_of_In, in_rev, list_elem_of_In in Hx.
    apply window_elem_of in Hx.
    by apply list_elem_of_In, in_rev, list_elem_of_In.
Qed.

Lemma select_files_elem_of leb o l g :
  g ∈ select_files leb o l → ∃ f, f ∈ l ∧ g = select_file f.
Proof.
  unfold select_files. intros Hg.
  apply list_elem_of_In, in_map_iff in Hg as (f & <- & Hf).
  exists f. split; [|done].
  rewrite <- (sort_files_perm leb l).
  by eapply paginate_elem_of, list_elem_of_In.
Qed.

Lemma order_of_parseSortOrder v : is_Some (order_of (parseSortOrder v)).
Proof.
  destruct (parseSortOrder_cases v)
    as [->|(s & f & d & rest & -> & _ & Hf & Hd & ->)]; [by eexists|].
  unfold order_of. rewrite map_to_list_singleton.
  unfold validFields, validDirections in *.
  repeat (apply elem_of_cons in Hf as [->|Hf]).
  4: by apply elem_of_nil in Hf.
  all: repeat (apply elem_of_cons in Hd as [->|Hd]).
  all: try by apply elem_of_nil in Hd.
  all: by eexists.
Qed.

(** ** The handler *)

Section RouteFacts.

Variable SETTINGS_defaultSortOrder : JsString.
Variable constructFilePublicLink :
  Request → string → bool → bool → gmap string JsValue.

Local Abbreviation effectiveSortOrder := (effectiveSortOrder SETTINGS_defaultSortOrder).
Local Abbreviation orderBy := (orderBy SETTINGS_defaultSortOrder).
Local Abbreviation push_file := (push_file constructFilePublicLink).
Local Abbreviation run := (run SETTINGS_defaultSortOrder constructFilePublicLink).
Local Abbreviation handle := (handle SETTINGS_defaultSortOrder constructFilePublicLink).

(** The arguments of the files selection, given the row the first query
    found. *)
Local Abbreviation files_args req row0 :=
  {| files_orderBy := orderBy {| meta_sortOrder := album_sortOrder row0 |};
     files_options := options req |}.

(** The returned file object built from a selected file. *)
Local Abbreviation linked req f :=
  (spread (file_object f)
          (constructFilePublicLink req (sel_name f) (sel_isS3 f)
                                   (sel_isWatched f))).

Lemma foldl_push_file req acc l :
  foldl (push_file req) acc l = (acc ++ map (λ f, linked req f) l)%list.
Proof.
  revert acc. induction l as [|f l IH]; intros acc; simpl.
  - by rewrite app_nil_r.
  - rewrite IH. unfold push_file. by rewrite <- app_assoc.
Qed.

Lemma handle_unfold world req :
  handle world req =
  match lookup_album (world 0%nat) (owner req) with
  | None => fulfilled (notFound album_not_found)
  | Some row0 =>
      match validate (files_args req row0) with
      | None => rejected
      | Some leb =>
          match lookup_album (world 1%nat) (owner req) with
          | None => fulfilled (notFound album_not_found)
          | Some row =>
              fulfilled
                (send {| message := "Successfully retrieved album";
                         name := album_name row;
                         description := album_description row;
                         isNsfw := album_nsfw row;
                         sortOrder := album_sortOrder row;
                         count := Z.of_nat (length (album_files row));
                         files :=
                           map (λ f, linked req f)
                               (select_files leb (options req)
                                             (album_files row)) |})
          end
      end
  end.
Proof.
  unfold handle, run, prisma_albums_findFirst.
  cbn [mbind prisma_mbind prisma_bind exec findFirst].
  destruct (lookup_album (world 0%nat) (owner req)) as [row0|]; [|done].
  cbn [fmap option_fmap option_map mret prisma_ret prisma_bind exec findFirst
       meta_sortOrder files_options].
  destruct (validate _) as [leb|]; [|done].
  destruct (lookup_album (world 1%nat) (owner req)) as [row|]; [|done].
  cbn. by rewrite foldl_push_file.
Qed.

Lemma fits_int64_in_int64 z : in_int64 z → fits_int64 z = true.
Proof.
  unfold in_int64, fits_int64. intros [Hlo Hhi].
  apply andb_true_iff. split; by apply Z.leb_le.
Qed.

Lemma validate_files_args req row0 :
  window_accepted req → is_Some (validate (files_args req row0)).
Proof.
  intros (_ & Hs & Ht & Hmax). unfold validate. cbn [files_options files_orderBy].
  destruct (Z.ltb_spec (skip (options req)) 0) as [?|_]; [lia|].
  rewrite (fits_int64_in_int64 _ Ht), fits_int64_in_int64.
  - apply order_of_parseSortOrder.
  - unfold in_int64, int64_min. split; [|done].
    assert (- 2 ^ 63 ≤ 0) by done. lia.
Qed.

Lemma handle_send world req e :
  handle world req = fulfilled (send e) →
  ∃ row0 row leb,
    lookup_album (world 0%nat) (owner req) = Some row0
    ∧ lookup_album (world 1%nat) (owner req) = Some row
    ∧ validate (files_args req row0) = Some leb
    ∧ message e = "Successfully retrieved album"
    ∧ name e = album_name row
    ∧ description e = album_description row
    ∧ isNsfw e = album_nsfw row
    ∧ sortOrder e = album_sortOrder row
    ∧ count e = Z.of_nat (length (album_files row))
    ∧ files e = map (λ f, linked req f)
                    (select_files leb (options req) (album_files row)).
Proof.
  rewrite handle_unfold.
  destruct (lookup_album (world 0%nat) (owner req)) as [row0|]; [|done].
  destruct (validate _) as [leb|] eqn:Hv; [|done].
  destruct (lookup_album (world 1%nat) (owner req)) as [row|]; [|done].
  intros [= <-]. by exists row0, row, leb.
Qed.

Lemma handle_unowned world req :
  unowned (world 0%nat) req → handle world req = fulfilled (notFound album_not_found).
Proof.
  intros Hno. rewrite handle_unfold.
  by rewrite (proj2 (lookup_album_unowned (world 0%nat) req) Hno).
Qed.

Lemma truthy_present v : truthy v = true ↔ present v.
Proof.
  unfold present. split.
  - destruct v as [| |[|c s]]; try done. intros _. by exists (String c s).
  - intros (s & -> & Hs). by destruct s.
Qed.

Lemma effectiveSortOrder_truthy meta : truthy (effectiveSortOrder meta) = true.
Proof.
  unfold effectiveSortOrder, js_or.
  destruct (truthy (meta_sortOrder meta)) eqn:E1; rewrite ?E1; [done|].
  by destruct (truthy SETTINGS_defaultSortOrder) eqn:E2.
Qed.

Lemma queries_run world req row0 :
  lookup_album (world 0%nat) (owner req) = Some row0 →
  queries world 0 (run req) =
  [(owner req, SelectSortOrder); (owner req, SelectAlbum (files_args req row0))].
Proof.
  intros H0. unfold run, prisma_albums_findFirst.
  cbn [mbind prisma_mbind prisma_bind queries findFirst]. rewrite H0.
  cbn [fmap option_fmap option_map mret prisma_ret prisma_bind queries findFirst
       meta_sortOrder files_options].
  destruct (validate _); [|done].
  by destruct (lookup_album (world 1%nat) (owner req)).
Qed.

Lemma queries_run_unowned world req :
  lookup_album (world 0%nat) (owner req) = None →
  queries world 0 (run req) = [(owner req, SelectSortOrder)].
Proof.
  intros H0. unfold run, prisma_albums_findFirst.
  cbn [mbind prisma_mbind prisma_bind queries findFirst]. by rewrite H0.
Qed.

(** C1: when no row matches both the requested uuid and the requester's
    user id, the run answers not-found and sends no success envelope; and
    whatever the handler replies is either the success envelope or that one
    not-found answer, which is only given when a lookup of the requester's
    album came back empty. *)
Theorem run_not_found (world : nat → Database) (req : Request) :
  (unowned (world 0%nat) req →
   handle world req = fulfilled (notFound album_not_found)
   ∧ ∀ e, handle world req ≠ fulfilled (send e))
  ∧ (∀ reply, handle world req = fulfilled reply →
       (∃ e, reply = send e)
       ∨ (reply = notFound album_not_found
          ∧ (unowned (world 0%nat) req ∨ unowned (world 1%nat) req))).
Proof.
  split.
  - intros Hno. rewrite (handle_unowned world req Hno). by split.
  - intros reply. rewrite handle_unfold.
    destruct (lookup_album (world 0%nat) (owner req)) as [row0|] eqn:H0.
    + destruct (validate _) as [leb|]; [|done].
      destruct (lookup_album (world 1%nat) (owner req)) as [row|] eqn:H1.
      * intros [= <-]. left. by eexists.
      * intros [= <-]. right. split; [done|]. right.
        by apply lookup_album_unowned.
    + intros [= <-]. right. split; [done|]. left.
      by apply lookup_album_unowned.
Qed.

(** C3: the sort-order string in effect is the album's own setting when it
    is present, otherwise the global default setting when that is present,
    otherwise ["createdAt:desc"]; the files query is issued with the parse of
    that string as its [orderBy]. *)
Theorem effective_sort_order_chain (world : nat → Database) (req : Request)
    (row0 : AlbumRow) :
  lookup_album (world 0%nat) (owner req) = Some row0 →
  let stored := album_sortOrder row0 in
  let effective := effectiveSortOrder {| meta_sortOrder := stored |} in
  (present stored → effective = stored)
  ∧ (¬ present stored → present SETTINGS_defaultSortOrder →
     effective = SETTINGS_defaultSortOrder)
  ∧ (¬ present stored → ¬ present SETTINGS_defaultSortOrder →
     effective = str "createdAt:desc")
  ∧ queries world 0 (run req) =
    [(owner req, SelectSortOrder);
     (owner req, SelectAlbum {| files_orderBy := parseSortOrder effective;
                                files_options := options req |})].
Proof.
  intros H0 stored effective.
  assert (∀ v, ¬ present v → truthy v = false) as Hfalsy.
  { intros v Hv. destruct (truthy v) eqn:E; [|done].
    by apply truthy_present in E. }
  repeat split.
  - intros Hp%truthy_present. subst effective.
    unfold effectiveSortOrder, js_or. cbn [meta_sortOrder].
    fold stored. by rewrite !Hp.
  - intros Hs%Hfalsy Hp%truthy_present. subst effective.
    unfold effectiveSortOrder, js_or. cbn [meta_sortOrder].
    fold stored. by rewrite Hs, Hp.
  - intros Hs%Hfalsy Hg%Hfalsy. subst effective.
    unfold effectiveSortOrder, js_or. cbn [meta_sortOrder].
    fold stored. by rewrite Hs, Hg.
  - by rewrite (queries_run world req row0 H0).
Qed.

(** C4: every files query the run issues carries [take = limit] and
    [skip = (page - 1) * limit], where [page] is 1 and [limit] is 50 when
    the request leaves them out; page 2 with limit 10 gives skip 10 and
    take 10.  This is stated for the requests in which the double
    arithmetic of the source rounds nothing, the safe integers among
    them. *)
Theorem pagination_options (world : nat → Database) (req : Request)
    (w : Where) (args : FilesArgs) :
  (w, SelectAlbum args) ∈ queries world 0 (run req) →
  exact_options req →
  let page := match query_page req with Some p => p | None => 1 end in
  let limit := match query_limit req with Some l => l | None => 50 end in
  take (files_options args) = limit
  ∧ skip (files_options args) = (page - 1) * limit
  ∧ skip (files_options args) = number_mul (number_sub page 1) limit
  ∧ (query_page req = Some 2 → query_limit req = Some 10 →
     skip (files_options args) = 10 ∧ take (files_options args) = 10)
  ∧ (query_page req = None → query_limit req = None →
     skip (files_options args) = 0 ∧ take (files_options args) = 50).
Proof.
  intros Hq Hexact page limit.
  assert (files_options args = options req) as ->.
  { destruct (lookup_album (world 0%nat) (owner req)) as [row0|] eqn:H0.
    - rewrite (queries_run world req row0 H0) in Hq.
      apply elem_of_cons in Hq as [[=]|Hq].
      apply elem_of_cons in Hq as [[= _ ->]|Hq]; [done|].
      by apply elem_of_nil in Hq.
    - rewrite (queries_run_unowned world req H0) in Hq.
      apply elem_of_cons in Hq as [[=]|Hq]. by apply elem_of_nil in Hq. }
  assert (skip (options req) = (page - 1) * limit) as Hskip.
  { unfold options. cbn [skip]. subst page limit.
    by destruct (query_page req), (query_limit req). }
  split; [unfold options; cbn [take]; subst limit; by destruct (query_limit req)|].
  split; [done|].
  split.
  { rewrite <- (exact_options_skip req Hexact). subst page limit.
    by destruct (query_page req), (query_limit req). }
  rewrite Hskip. unfold options. cbn [take]. subst page limit.
  split; intros -> ->; done.
Qed.

(** C5: in every successful response, [count] is the number of files
    related to the album, whatever [page] and [limit] are and however many
    files the response lists. *)
Theorem count_is_album_total (world : nat → Database) (req : Request)
    (e : Envelope) :
  handle world req = fulfilled (send e) →
  ∃ row, lookup_album (world 1%nat) (owner req) = Some row
         ∧ count e = Z.of_nat (length (album_files row)).
Proof.
  intros (_ & row & _ & _ & H1 & _ & _ & _ & _ & _ & _ & Hc & _)%handle_send.
  by exists row.
Qed.

(** C6 (amended): when the requester's album is there, [skip] is at least
    the number of its files, and [take] and [skip] are computed without
    rounding and fit a signed 64-bit integer, the run still succeeds: it
    sends an envelope with an empty [files] array and the full [count]. *)
Theorem page_past_the_end (world : nat → Database) (req : Request)
    (row0 row : AlbumRow) :
  lookup_album (world 0%nat) (owner req) = Some row0 →
  lookup_album (world 1%nat) (owner req) = Some row →
  Z.of_nat (length (album_files row)) ≤ skip (options req) →
  window_accepted req →
  ∃ e, handle world req = fulfilled (send e)
       ∧ files e = []
       ∧ count e = Z.of_nat (length (album_files row)).
Proof.
  intros H0 H1 Hskip Hw. rewrite handle_unfold, H0.
  destruct (validate_files_args req row0 Hw) as [leb ->].
  rewrite H1. eexists. split; [done|]. split; [|done].
  cbn [files]. unfold select_files.
  rewrite paginate_past_end; [done|].
  by rewrite (Permutation_length (sort_files_perm leb (album_files row))).
Qed.

(** C7: every file object of a successful response is a file of the album
    spread together with what [constructFilePublicLink] returns for that
    file's name and its [isS3] and [isWatched] flags, so it carries every
    link field computed from those flags. *)
Theorem files_carry_public_link (world : nat → Database) (req : Request)
    (e : Envelope) (o : gmap string JsValue) :
  handle world req = fulfilled (send e) →
  o ∈ files e →
  ∃ row f,
    lookup_album (world 1%nat) (owner req) = Some row
    ∧ f ∈ album_files row
    ∧ o = spread (file_object (select_file f))
                 (constructFilePublicLink req (file_name f) (file_isS3 f)
                                          (file_isWatched f))
    ∧ ∀ k v,
        constructFilePublicLink req (file_name f) (file_isS3 f)
                                (file_isWatched f) !! k = Some v →
        o !! k = Some v.
Proof.
  intros (_ & row & leb & _ & H1 & _ & _ & _ & _ & _ & _ & _ & Hf)%handle_send Ho.
  rewrite Hf in Ho.
  apply list_elem_of_In, in_map_iff in Ho as (g & <- & Hg).
  apply list_elem_of_In, select_files_elem_of in Hg as (f & Hin & ->).
  exists row, f. repeat split; [done..|].
  intros k v Hk. unfold spread. by apply lookup_union_Some_l.
Qed.

(** C8: every successful response is the envelope of the seven fields
    [message], [name], [description], [isNsfw], [sortOrder], [count] and
    [files], with the fixed message and with [name], [description] and
    [isNsfw] read from the album row the second query fetched. *)
Theorem success_envelope (world : nat → Database) (req : Request)
    (e : Envelope) :
  handle world req = fulfilled (send e) →
  ∃ row,
    lookup_album (world 1%nat) (owner req) = Some row
    ∧ e = {| message := "Successfully retrieved album";
             name := album_name row;
             description := album_description row;
             isNsfw := album_nsfw row;
             sortOrder := sortOrder e;
             count := count e;
             files := files e |}.
Proof.
  intros (_ & row & _ & _ & H1 & _ & Hm & Hn & Hd & Hx & _)%handle_send.
  exists row. split; [done|]. destruct e; simpl in *. by subst.
Qed.

(** C10: the [sortOrder] of a successful response is the stored
    [sortOrder] of the fetched album row, as it is; when that is [null] the
    response says [null], which is never the sort order in effect. *)
Theorem response_echoes_stored_sortOrder (world : nat → Database)
    (req : Request) (e : Envelope) :
  handle world req = fulfilled (send e) →
  ∃ row,
    lookup_album (world 1%nat) (owner req) = Some row
    ∧ sortOrder e = album_sortOrder row
    ∧ (album_sortOrder row = null →
       sortOrder e = null ∧ ∀ meta, effectiveSortOrder meta ≠ sortOrder e).
Proof.
  intros (_ & row & _ & _ & H1 & _ & _ & _ & _ & _ & Hs & _)%handle_send.
  exists row. split; [done|]. split; [done|].
  intros Hn. split; [by rewrite Hs|].
  intros meta Heq. pose proof (effectiveSortOrder_truthy meta) as Ht.
  by rewrite Heq, Hs, Hn in Ht.
Qed.

End RouteFacts.

(** ** The theorems at work on the sample store *)

Lemma run_not_found_witness :
  (handle undefined Sample.link Sample.world Sample.by_stranger
   = fulfilled (notFound album_not_found)
   ∧ ∀ e, handle undefined Sample.link Sample.world Sample.by_stranger
          ≠ fulfilled (send e))
  ∧ ((∃ e, send Sample.second_page = send e)
     ∨ (send Sample.second_page = notFound album_not_found
        ∧ (unowned (Sample.world 0%nat) (Sample.by_owner (Some 2) (Some 2))
           ∨ unowned (Sample.world 1%nat) (Sample.by_owner (Some 2) (Some 2))))).
Proof.
  split.
  - apply (proj1 (run_not_found undefined Sample.link Sample.world
                                Sample.by_stranger)).
    intros row Hin [_ Hid].
    apply elem_of_cons in Hin as [->|Hin]; [discriminate Hid|].
    by apply elem_of_nil in Hin.
  - apply (proj2 (run_not_found undefined Sample.link Sample.world
                                (Sample.by_owner (Some 2) (Some 2)))).
    vm_compute. reflexivity.
Defined.

Lemma effective_sort_order_chain_witness :
  effectiveSortOrder (str "size:asc") {| meta_sortOrder := null |}
  = str "size:asc"
  ∧ queries Sample.world 0
            (run (str "size:asc") Sample.link (Sample.by_owner None None))
    = [(owner (Sample.by_owner None None), SelectSortOrder);
       (owner (Sample.by_owner None None),
        SelectAlbum {| files_orderBy := {[ "size" := "asc" ]};
                       files_options := {| take := 50; skip := 0 |} |})].
Proof.
  pose proof (effective_sort_order_chain (str "size:asc") Sample.link
                Sample.world (Sample.by_owner None None) Sample.holiday
                eq_refl) as (_ & Hglobal & _ & Hqueries).
  split.
  - apply Hglobal.
    + intros (s & [=] & _).
    + exists "size:asc". split; [reflexivity|discriminate].
  - exact Hqueries.
Defined.

Lemma pagination_options_witness :
  let args := {| files_orderBy := {[ "createdAt" := "desc" ]};
                 files_options := {| take := 10; skip := 10 |} |} in
  skip (files_options args) = 10 ∧ take (files_options args) = 10.
Proof.
  intros args.
  refine (proj1 (proj2 (proj2 (proj2
            (pagination_options undefined Sample.link Sample.world
               (Sample.by_owner (Some 2) (Some 10))
               (owner (Sample.by_owner (Some 2) (Some 10))) args _ _))))
            eq_refl eq_refl).
  - vm_compute. apply list_elem_of_further, list_elem_of_here.
  - vm_compute. repeat split.
Defined.

Lemma count_is_album_total_witness :
  length (files Sample.second_page) = 1%nat
  ∧ ∃ row,
      lookup_album (Sample.world 1%nat) (owner (Sample.by_owner (Some 2) (Some 2)))
      = Some row
      ∧ count Sample.second_page = Z.of_nat (length (album_files row)).
Proof.
  split; [reflexivity|].
  apply (count_is_album_total undefined Sample.link Sample.world
           (Sample.by_owner (Some 2) (Some 2)) Sample.second_page).
  vm_compute. reflexivity.
Defined.

Lemma page_past_the_end_witness :
  ∃ e, handle undefined Sample.link Sample.world (Sample.by_owner (Some 5) (Some 2))
       = fulfilled (send e)
       ∧ files e = []
       ∧ count e = Z.of_nat (length (album_files Sample.holiday)).
Proof.
  apply (page_past_the_end undefined Sample.link Sample.world
           (Sample.by_owner (Some 5) (Some 2)) Sample.holiday Sample.holiday).
  - reflexivity.
  - reflexivity.
  - vm_compute. discriminate.
  - vm_compute. repeat split; discriminate.
Defined.

(** C6, as the specification words it, does not hold for every request: a
    window that starts past the end with a [limit] of 2^63, a double which
    the source multiplies by 1 without rounding, is refused by the query
    validation, so the run does not succeed. *)
Lemma page_past_the_end_beyond_int64 :
  ¬ (∀ (world : nat → Database) (req : Request) (row0 row : AlbumRow),
       lookup_album (world 0%nat) (owner req) = Some row0 →
       lookup_album (world 1%nat) (owner req) = Some row →
       Z.of_nat (length (album_files row)) ≤ skip (options req) →
       ∃ e, handle undefined Sample.link world req = fulfilled (send e)
            ∧ files e = []
            ∧ count e = Z.of_nat (length (album_files row))).
Proof.
  intros H.
  destruct (H Sample.world (Sample.by_owner (Some 2) (Some (2 ^ 63)))
              Sample.holiday Sample.holiday) as (e & He & _).
  - reflexivity.
  - reflexivity.
  - vm_compute. discriminate.
  - assert (handle undefined Sample.link Sample.world
                   (Sample.by_owner (Some 2) (Some (2 ^ 63))) = rejected) as Hr
      by (vm_compute; reflexivity).
    rewrite Hr in He. discriminate He.
Qed.

Lemma files_carry_public_link_witness :
  ∃ row f,
    lookup_album (Sample.world 1%nat) (owner (Sample.by_owner (Some 2) (Some 2)))
    = Some row
    ∧ f ∈ album_files row
    ∧ Sample.watched_file
      = spread (file_object (select_file f))
               (Sample.link (Sample.by_owner (Some 2) (Some 2)) (file_name f)
                            (file_isS3 f) (file_isWatched f))
    ∧ ∀ k v,
        Sample.link (Sample.by_owner (Some 2) (Some 2)) (file_name f)
                    (file_isS3 f) (file_isWatched f) !! k = Some v →
        Sample.watched_file !! k = Some v.
Proof.
  apply (files_carry_public_link undefined Sample.link Sample.world
           (Sample.by_owner (Some 2) (Some 2)) Sample.second_page
           Sample.watched_file).
  - vm_compute. reflexivity.
  - apply list_elem_of_here.
Defined.

Lemma success_envelope_witness :
  ∃ row,
    lookup_album (Sample.world 1%nat) (owner (Sample.by_owner (Some 2) (Some 2)))
    = Some row
    ∧ Sample.second_page
      = {| message := "Successfully retrieved album";
           name := album_name row;
           description := album_description row;
           isNsfw := album_nsfw row;
           sortOrder := sortOrder Sample.second_page;
           count := count Sample.second_page;
           files := files Sample.second_page |}.
Proof.
  apply (success_envelope undefined Sample.link Sample.world
           (Sample.by_owner (Some 2) (Some 2)) Sample.second_page).
  vm_compute. reflexivity.
Defined.

Lemma response_echoes_stored_sortOrder_witness :
  ∃ row,
    lookup_album (Sample.world 1%nat) (owner (Sample.by_owner (Some 2) (Some 2)))
    = Some row
    ∧ sortOrder Sample.second_page = album_sortOrder row
    ∧ (album_sortOrder row = null →
       sortOrder Sample.second_page = null
       ∧ ∀ meta, effectiveSortOrder (str "name:asc") meta
                 ≠ sortOrder Sample.second_page).
Proof.
  apply (response_echoes_stored_sortOrder (str "name:asc") Sample.link
           Sample.world (Sample.by_owner (Some 2) (Some 2)) Sample.second_page).
  vm_compute. reflexivity.
Defined.

(** * Further properties of the route *)

(** ** parseSortOrder *)

(** X1: [id] is never ordered ascending: when the returned ordering has the
    key [id], its direction is [desc] and the ordering is the default. *)
Theorem parseSortOrder_id_only_desc (v : JsString) (d : string) :
  parseSortOrder v !! "id" = Some d →
  d = "desc" ∧ parseSortOrder v = defaultOrder.
Proof.
  destruct (parseSortOrder_cases v)
    as [E|(s & f & d' & rest & -> & _ & Hf & _ & E)]; rewrite E.
  - unfold defaultOrder. by intros [_ <-]%lookup_singleton_Some.
  - intros [-> _]%lookup_singleton_Some.
    unfold validFields in Hf.
    repeat (apply elem_of_cons in Hf as [Hf|Hf]; [discriminate Hf|]).
    by apply elem_of_nil in Hf.
Qed.

Lemma parseSortOrder_id_only_desc_witness :
  "desc" = "desc" ∧ parseSortOrder (str "id:asc") = defaultOrder.
Proof.
  apply (parseSortOrder_id_only_desc (str "id:asc") "desc").
  vm_compute. reflexivity.
Defined.

(** X2: an input without any [":"], and an input that begins with [":"],
    are both sent to the default ordering. *)
Theorem parseSortOrder_needs_two_segments (s : string) :
  (¬ ∃ a b, s = a +:+ ":" +:+ b) ∨ (∃ rest, s = ":" +:+ rest) →
  parseSortOrder (str s) = defaultOrder.
Proof.
  intros [Hno|[rest ->]].
  - destruct (parseSortOrder_cases (str s))
      as [E|(s' & f & d & r & [= <-] & E & _ & _ & _)]; [done|].
    destruct Hno. apply split_leading_pair in E as [->|[r' ->]].
    + by exists f, d.
    + exists f, (d +:+ ":" +:+ r'). done.
  - rewrite parseSortOrder_segments.
    change (split ":" (":" +:+ rest)) with ("" :: split ":" rest).
    by destruct (split ":" rest).
Qed.

Lemma parseSortOrder_needs_two_segments_witness :
  parseSortOrder (str ":asc") = defaultOrder
  ∧ parseSortOrder (str "name") = defaultOrder.
Proof.
  split.
  - apply (parseSortOrder_needs_two_segments ":asc").
    right. exists "asc". reflexivity.
  - apply (parseSortOrder_needs_two_segments "name").
    left. intros (a & b & E).
    do 4 (destruct a as [|? a]; [discriminate E|injection E as _ E]).
    destruct a; discriminate E.
Defined.

(** ** The ORM window behind [page] and [limit] *)

Lemma paginate_length {A} (o : Options) (l : list A) :
  length (paginate o l)
  = Nat.min (Z.to_nat (Z.abs (take o))) (length l - Z.to_nat (skip o)).
Proof.
  unfold paginate. destruct (Z.leb_spec 0 (take o)) as [Ht|Ht].
  - rewrite length_firstn, length_skipn. by rewrite Z.abs_eq.
  - rewrite length_rev, length_firstn, length_skipn, length_rev.
    by rewrite Z.abs_neq by lia.
Qed.

Lemma paginate_with_page {A} (req : Request) (p : nat) (limit : Z) (l : list A) :
  0 ≤ limit →
  paginate (options (with_page req (Z.of_nat (S p)) limit)) l
  = firstn (Z.to_nat limit) (skipn (p * Z.to_nat limit) l).
Proof.
  intros Hl. unfold paginate, options, with_page. cbn.
  destruct (Z.leb_spec 0 limit) as [_|?]; [|lia].
  do 2 f_equal. lia.
Qed.

(** X9: with a fixed non-negative [limit], the windows of pages 1, 2, ...,
    n lie end to end: put one after the other they are the first
    [n * limit] elements of the ordered list, with no element left out or
    repeated, and they are the whole list once [n * limit] reaches its
    length. *)
Theorem pages_tile {A} (req : Request) (limit : Z) (n : nat) (l : list A) :
  0 ≤ limit →
  concat (map (λ p, paginate (options (with_page req (Z.of_nat p) limit)) l)
              (seq 1 n))
  = firstn (n * Z.to_nat limit) l
  ∧ ((length l ≤ n * Z.to_nat limit)%nat →
     concat (map (λ p, paginate (options (with_page req (Z.of_nat p) limit)) l)
                 (seq 1 n))
     = l).
Proof.
  intros Hl.
  assert (concat (map (λ p, paginate (options (with_page req (Z.of_nat p) limit)) l)
                      (seq 1 n))
          = firstn (n * Z.to_nat limit) l) as E.
  { induction n as [|n IH]; [done|].
    rewrite seq_S, map_app, concat_app, IH. cbn [map concat Nat.add].
    rewrite app_nil_r, (paginate_with_page req n limit l Hl).
    rewrite take_take_drop. f_equal. lia. }
  split; [done|]. intros Hn. rewrite E. by apply firstn_all2.
Qed.

Lemma pages_tile_witness :
  concat (map (λ p, paginate (options (with_page Sample.by_stranger
                                                 (Z.of_nat p) 2))
                             [10; 20; 30; 40; 50])
              (seq 1 3))
  = [10; 20; 30; 40; 50].
Proof.
  refine (proj2 (pages_tile Sample.by_stranger 2 3 [10; 20; 30; 40; 50] _) _).
  - lia.
  - vm_compute. lia.
Defined.

(** ** The handler, continued *)

(** X4: when the album's own [sortOrder] is a non-empty string the global
    default plays no part: the ordering passed to the files query is the
    parse of the album's string, whatever the global default is, also when
    that string is malformed and parses to the default ordering. *)
Theorem orderBy_album_setting_wins (global1 global2 : JsString)
    (albumMeta : AlbumMeta) :
  present (meta_sortOrder albumMeta) →
  orderBy global1 albumMeta = parseSortOrder (meta_sortOrder albumMeta)
  ∧ orderBy global1 albumMeta = orderBy global2 albumMeta.
Proof.
  intros Hp%truthy_present.
  assert (∀ g, orderBy g albumMeta = parseSortOrder (meta_sortOrder albumMeta))
    as E.
  { intros g. unfold orderBy, effectiveSortOrder, js_or. by rewrite !Hp. }
  by rewrite !E.
Qed.

Lemma orderBy_album_setting_wins_witness :
  orderBy (str "name:asc") {| meta_sortOrder := str "newest" |}
  = parseSortOrder (str "newest")
  ∧ orderBy (str "name:asc") {| meta_sortOrder := str "newest" |}
    = orderBy undefined {| meta_sortOrder := str "newest" |}.
Proof.
  apply (orderBy_album_setting_wins (str "name:asc") undefined
           {| meta_sortOrder := str "newest" |}).
  exists "newest". split; [reflexivity|discriminate].
Defined.

Section RouteMore.

Variable SETTINGS_defaultSortOrder : JsString.
Variable constructFilePublicLink :
  Request → string → bool → bool → gmap string JsValue.

Local Abbreviation orderBy := (orderBy SETTINGS_defaultSortOrder).
Local Abbreviation run := (run SETTINGS_defaultSortOrder constructFilePublicLink).
Local Abbreviation handle :=
  (handle SETTINGS_defaultSortOrder constructFilePublicLink).

(** X3: when neither the album nor the global settings give a sort order,
    the files are ordered by [createdAt] descending, which is not the
    parser's own default [id desc]. *)
Theorem orderBy_hardcoded_fallback (albumMeta : AlbumMeta) :
  ¬ present (meta_sortOrder albumMeta) →
  ¬ present SETTINGS_defaultSortOrder →
  orderBy albumMeta = {[ "createdAt" := "desc" ]}
  ∧ orderBy albumMeta ≠ defaultOrder.
Proof.
  intros Ha Hg.
  assert (∀ v, ¬ present v → truthy v = false) as Hfalsy.
  { intros v Hv. destruct (truthy v) eqn:E; [|done].
    by apply truthy_present in E. }
  assert (orderBy albumMeta = {[ "createdAt" := "desc" ]}) as E.
  { unfold orderBy, effectiveSortOrder, js_or.
    rewrite (Hfalsy _ Ha), (Hfalsy _ Hg). reflexivity. }
  split; [done|]. rewrite E. unfold defaultOrder. intros Heq.
  assert (({[ "createdAt" := "desc" ]} : gmap string string) !! "id"
          = ({[ "id" := "desc" ]} : gmap string string) !! "id") as Hl
    by (by rewrite Heq).
  vm_compute in Hl. discriminate Hl.
Qed.

(** X5: every query of a run is filtered by the requested uuid and the
    requester's user id; a run issues at most two queries; and when the
    requester owns no such album the files query is not issued at all. *)
Theorem queries_scoped_to_requester (world : nat → Database) (req : Request) :
  (∀ w sel, (w, sel) ∈ queries world 0 (run req) →
            where_uuid w = params_uuid req ∧ where_userId w = user_id req)
  ∧ (length (queries world 0 (run req)) ≤ 2)%nat
  ∧ (unowned (world 0%nat) req →
     ∀ w args, (w, SelectAlbum args) ∉ queries world 0 (run req)).
Proof.
  destruct (lookup_album (world 0%nat) (owner req)) as [row0|] eqn:H0.
  - rewrite (queries_run _ constructFilePublicLink world req row0 H0).
    split; [|split]; [|cbn; lia|].
    + intros w sel Hq.
      apply elem_of_cons in Hq as [[= -> _]|Hq]; [done|].
      apply elem_of_cons in Hq as [[= -> _]|Hq]; [done|].
      by apply elem_of_nil in Hq.
    + intros Hno%lookup_album_unowned. by rewrite Hno in H0.
  - rewrite (queries_run_unowned _ constructFilePublicLink world req H0).
    split; [|split]; [|cbn; lia|].
    + intros w sel Hq.
      apply elem_of_cons in Hq as [[= -> _]|Hq]; [done|].
      by apply elem_of_nil in Hq.
    + intros _ w args Hq.
      apply elem_of_cons in Hq as [[=]|Hq]. by apply elem_of_nil in Hq.
Qed.

(** X6: a success envelope is only ever built from an album row that is in
    the store, has the requested uuid and belongs to the requester; the
    same holds of the row the first query read the sort order from. *)
Theorem response_is_owned_album (world : nat → Database) (req : Request)
    (e : Envelope) :
  handle world req = fulfilled (send e) →
  (∃ row, row ∈ world 1%nat
          ∧ album_uuid row = params_uuid req
          ∧ album_userId row = user_id req
          ∧ name e = album_name row
          ∧ description e = album_description row
          ∧ isNsfw e = album_nsfw row
          ∧ sortOrder e = album_sortOrder row
          ∧ count e = Z.of_nat (length (album_files row)))
  ∧ (∃ row0, row0 ∈ world 0%nat
             ∧ album_uuid row0 = params_uuid req
             ∧ album_userId row0 = user_id req).
Proof.
  intros (row0 & row & leb & H0 & H1 & _ & _ & Hn & Hd & Hx & Hs & Hc & _)%handle_send.
  apply lookup_album_Some in H0 as (Hin0 & Hu0 & Hi0).
  apply lookup_album_Some in H1 as (Hin1 & Hu1 & Hi1).
  split.
  - by exists row.
  - by exists row0.
Qed.

(** X7: when the album is found by the first query but is gone by the
    second, and the files query passes validation ([skip] not negative,
    [take] and [skip] computed without rounding and within signed 64
    bits), the run answers not-found. *)
Theorem album_gone_between_queries (world : nat → Database) (req : Request)
    (row0 : AlbumRow) :
  lookup_album (world 0%nat) (owner req) = Some row0 →
  window_accepted req →
  unowned (world 1%nat) req →
  handle world req = fulfilled (notFound album_not_found).
Proof.
  intros H0 Hw Hno%lookup_album_unowned.
  rewrite handle_unfold, H0.
  destruct (validate_files_args SETTINGS_defaultSortOrder req row0 Hw)
    as [leb ->].
  by rewrite Hno.
Qed.

(** X8: a successful response lists exactly
    [max 0 (min |limit| (count - skip))] files, with [skip] not negative;
    so never more than [count] and never more than [|limit|]. *)
Theorem page_length (world : nat → Database) (req : Request) (e : Envelope) :
  handle world req = fulfilled (send e) →
  0 ≤ skip (options req)
  ∧ Z.of_nat (length (files e))
    = Z.max 0 (Z.min (Z.abs (take (options req)))
                     (count e - skip (options req)))
  ∧ Z.of_nat (length (files e)) ≤ count e
  ∧ Z.of_nat (length (files e)) ≤ Z.abs (take (options req)).
Proof.
  intros (row0 & row & leb & _ & _ & Hv & _ & _ & _ & _ & _ & Hc & Hf)%handle_send.
  assert (0 ≤ skip (options req)) as Hs.
  { unfold validate in Hv. cbn [files_options] in Hv.
    by destruct (Z.ltb_spec (skip (options req)) 0). }
  assert (length (files e)
          = Nat.min (Z.to_nat (Z.abs (take (options req))))
                    (length (album_files row) - Z.to_nat (skip (options req))))
    as Hlen.
  { rewrite Hf. unfold select_files.
    rewrite !length_map, paginate_length.
    by rewrite (Permutation_length (sort_files_perm leb (album_files row))). }
  rewrite Hc, Hlen. lia.
Qed.

(** X10: in every file object of a successful response, each key the link
    helper does not return keeps the value selected from the file's row,
    and the selection has no [id]: the row's numeric id is not sent unless
    the link helper itself adds such a key. *)
Theorem file_fields_survive (world : nat → Database) (req : Request)
    (e : Envelope) (o : gmap string JsValue) :
  handle world req = fulfilled (send e) →
  o ∈ files e →
  ∃ row f,
    lookup_album (world 1%nat) (owner req) = Some row
    ∧ f ∈ album_files row
    ∧ (∀ k, constructFilePublicLink req (file_name f) (file_isS3 f)
                                    (file_isWatched f) !! k = None →
            o !! k = file_object (select_file f) !! k)
    ∧ file_object (select_file f) !! "id" = None
    ∧ file_object (select_file f) !! "name" = Some (JsText (file_name f))
    ∧ file_object (select_file f) !! "isS3" = Some (JsBool (file_isS3 f)).
Proof.
  intros (_ & row & leb & _ & H1 & _ & _ & _ & _ & _ & _ & _ & Hf)%handle_send Ho.
  rewrite Hf in Ho.
  apply list_elem_of_In, in_map_iff in Ho as (g & <- & Hg).
  apply list_elem_of_In, select_files_elem_of in Hg as (f & Hin & ->).
  exists row, f. split; [done|]. split; [done|]. split.
  - intros k Hk. unfold spread. by rewrite lookup_union_r.
  - unfold file_object, select_file. cbn. repeat split.
Qed.

End RouteMore.

(** ** The further properties at work on the sample store *)

Lemma orderBy_hardcoded_fallback_witness :
  orderBy undefined {| meta_sortOrder := null |} = {[ "createdAt" := "desc" ]}
  ∧ orderBy undefined {| meta_sortOrder := null |} ≠ defaultOrder.
Proof.
  apply (orderBy_hardcoded_fallback undefined {| meta_sortOrder := null |}).
  - intros (s & E & _). discriminate E.
  - intros (s & E & _). discriminate E.
Defined.

Lemma queries_scoped_to_requester_witness :
  (owner Sample.by_stranger,
   SelectAlbum {| files_orderBy := {[ "createdAt" := "desc" ]};
                  files_options := options Sample.by_stranger |})
  ∉ queries Sample.world 0 (run undefined Sample.link Sample.by_stranger).
Proof.
  apply (proj2 (proj2 (queries_scoped_to_requester undefined Sample.link
                         Sample.world Sample.by_stranger))).
  intros row Hin [_ Hid].
  apply elem_of_cons in Hin as [->|Hin]; [discriminate Hid|].
  by apply elem_of_nil in Hin.
Defined.

Lemma response_is_owned_album_witness :
  (∃ row, row ∈ Sample.world 1%nat
          ∧ album_uuid row = params_uuid (Sample.by_owner (Some 2) (Some 2))
          ∧ album_userId row = user_id (Sample.by_owner (Some 2) (Some 2))
          ∧ name Sample.second_page = album_name row
          ∧ description Sample.second_page = album_description row
          ∧ isNsfw Sample.second_page = album_nsfw row
          ∧ sortOrder Sample.second_page = album_sortOrder row
          ∧ count Sample.second_page = Z.of_nat (length (album_files row)))
  ∧ (∃ row0, row0 ∈ Sample.world 0%nat
             ∧ album_uuid row0 = params_uuid (Sample.by_owner (Some 2) (Some 2))
             ∧ album_userId row0 = user_id (Sample.by_owner (Some 2) (Some 2))).
Proof.
  apply (response_is_owned_album undefined Sample.link Sample.world
           (Sample.by_owner (Some 2) (Some 2)) Sample.second_page).
  vm_compute. reflexivity.
Defined.

Lemma album_gone_between_queries_witness :
  handle undefined Sample.link Vanishing.world (Sample.by_owner None None)
  = fulfilled (notFound album_not_found).
Proof.
  apply (album_gone_between_queries undefined Sample.link Vanishing.world
           (Sample.by_owner None None) Sample.holiday).
  - reflexivity.
  - vm_compute. repeat split; discriminate.
  - intros row Hin. by apply elem_of_nil in Hin.
Defined.

Lemma page_length_witness :
  0 ≤ skip (options (Sample.by_owner (Some 2) (Some 2)))
  ∧ Z.of_nat (length (files Sample.second_page))
    = Z.max 0 (Z.min (Z.abs (take (options (Sample.by_owner (Some 2) (Some 2)))))
                     (count Sample.second_page
                      - skip (options (Sample.by_owner (Some 2) (Some 2)))))
  ∧ Z.of_nat (length (files Sample.second_page)) ≤ count Sample.second_page
  ∧ Z.of_nat (length (files Sample.second_page))
    ≤ Z.abs (take (options (Sample.by_owner (Some 2) (Some 2)))).
Proof.
  apply (page_length undefined Sample.link Sample.world
           (Sample.by_owner (Some 2) (Some 2)) Sample.second_page).
  vm_compute. reflexivity.
Defined.

Lemma file_fields_survive_witness :
  ∃ row f,
    lookup_album (Sample.world 1%nat) (owner (Sample.by_owner (Some 2) (Some 2)))
    = Some row
    ∧ f ∈ album_files row
    ∧ (∀ k, Sample.link (Sample.by_owner (Some 2) (Some 2)) (file_name f)
                        (file_isS3 f) (file_isWatched f) !! k = None →
            Sample.watched_file !! k = file_object (select_file f) !! k)
    ∧ file_object (select_file f) !! "id" = None
    ∧ file_object (select_file f) !! "name" = Some (JsText (file_name f))
    ∧ file_object (select_file f) !! "isS3" = Some (JsBool (file_isS3 f)).
Proof.
  apply (file_fields_survive undefined Sample.link Sample.world
           (Sample.by_owner (Some 2) (Some 2)) Sample.second_page
           Sample.watched_file).
  - vm_compute. reflexivity.
  - apply list_elem_of_here.
Defined.

(** ** Sort-order strings never fail a request; the whole album on one page *)

Section RouteReplies.

Variable SETTINGS_defaultSortOrder : JsString.
Variable constructFilePublicLink :
  Request → string → bool → bool → gmap string JsValue.

Local Abbreviation handle :=
  (handle SETTINGS_defaultSortOrder constructFilePublicLink).

(** X11: whatever sort-order strings the album row and the global settings
    hold, malformed ones included, a run whose [take] and [skip] pass the
    query validation (computed without rounding, [skip] not negative, both
    within signed 64 bits) is never refused: it always ends in a reply. *)
Theorem sort_order_never_rejects (world : nat → Database) (req : Request) :
  window_accepted req →
  ∃ reply, handle world req = fulfilled reply.
Proof.
  intros Hw. rewrite handle_unfold.
  destruct (lookup_album (world 0%nat) (owner req)) as [row0|]; [|by eexists].
  destruct (validate_files_args SETTINGS_defaultSortOrder req row0 Hw)
    as [leb ->].
  destruct (lookup_album (world 1%nat) (owner req)); by eexists.
Qed.

(** X12: when [skip] is 0 and [limit] is at least the number of files, a
    successful response lists every file of the album exactly once: its
    files are, up to order, the album's files each spread with its link. *)
Theorem whole_album_on_one_page (world : nat → Database) (req : Request)
    (e : Envelope) :
  handle world req = fulfilled (send e) →
  skip (options req) = 0 →
  count e ≤ take (options req) →
  ∃ row,
    lookup_album (world 1%nat) (owner req) = Some row
    ∧ files e
      ≡ₚ map (λ f, spread (file_object (select_file f))
                          (constructFilePublicLink req (file_name f)
                             (file_isS3 f) (file_isWatched f)))
             (album_files row)
    ∧ length (files e) = length (album_files row).
Proof.
  intros (_ & row & leb & _ & H1 & _ & _ & _ & _ & _ & _ & Hc & Hf)%handle_send
         Hskip Htake.
  exists row. split; [done|].
  assert (paginate (options req) (sort_files leb (album_files row))
          = sort_files leb (album_files row)) as Hp.
  { unfold paginate. rewrite Hskip.
    destruct (Z.leb_spec 0 (take (options req))) as [_|?]; [|lia].
    change (Z.to_nat 0) with 0%nat. rewrite skipn_O.
    apply firstn_all2.
    rewrite (Permutation_length (sort_files_perm leb (album_files row))). lia. }
  assert (files e
          ≡ₚ map (λ f, spread (file_object (select_file f))
                              (constructFilePublicLink req (file_name f)
                                 (file_isS3 f) (file_isWatched f)))
                 (album_files row)) as Hperm.
  { rewrite Hf. unfold select_files. rewrite Hp, map_map. cbn [select_file sel_name sel_isS3 sel_isWatched].
    apply Permutation_map, sort_files_perm. }
  split; [done|]. by rewrite (Permutation_length Hperm), length_map.
Qed.

End RouteReplies.

Lemma sort_order_never_rejects_witness :
  ∃ reply,
    handle (str "no such order") Sample.link Sample.world
           (Sample.by_owner None None)
    = fulfilled reply.
Proof.
  apply (sort_order_never_rejects (str "no such order") Sample.link
           Sample.world (Sample.by_owner None None)).
  vm_compute. repeat split; discriminate.
Defined.

Lemma whole_album_on_one_page_witness :
  ∃ row,
    lookup_album (Sample.world 1%nat) (owner (Sample.by_owner None None))
    = Some row
    ∧ files WholeAlbum.first_page
      ≡ₚ map (λ f, spread (file_object (select_file f))
                          (Sample.link (Sample.by_owner None None)
                                       (file_name f) (file_isS3 f)
                                       (file_isWatched f)))
             (album_files row)
    ∧ length (files WholeAlbum.first_page) = length (album_files row).
Proof.
  apply (whole_album_on_one_page undefined Sample.link Sample.world
           (Sample.by_owner None None) WholeAlbum.first_page).
  - vm_compute. reflexivity.
  - reflexivity.
  - vm_compute. discriminate.
Defined.
